(** * Sparse hierarchical addressing nodes ([include/struct.h])

    A shallow embedding of the node family of [struct.h]
    ([layout_root], [dense], [hashed], [pointer], [dynamic], [indirect])
    and the properties of its look-up / activation / append contract.

    Conventions of the embedding.
    - A C++ [int] is a [Z]; arithmetic that the code performs on [int]
      goes through [Int.wrap] (32-bit two's complement).
    - The two compilation modes of the header are a value of [context]:
      [Host] stands for a build with [TLANG_HOST] defined, [Device] for a
      build without it.
    - A [child_type *] is a [ptr]: [None] is [nullptr], [Some a] is the
      address [a] of a block handed out by the block allocator.
    - The address of an embedded child ([&children], [&children[i]],
      [&data[i]]) is represented by its element index.
    - Every member function is a function from the node (and, where it
      allocates, the allocator world) to its result and the updated node. *)

From Stdlib Require Import ZArith List Lia.
From stdpp Require Import base option list gmap.

Open Scope Z_scope.

(** ** Machine integers *)

Module Int.

Definition min_int : Z := - 2 ^ 31.
Definition max_int : Z := 2 ^ 31 - 1.

(** Reduction of a mathematical integer to the value an [int] holds. *)
Definition wrap (z : Z) : Z := (z + 2 ^ 31) mod 2 ^ 32 - 2 ^ 31.

Definition add (a b : Z) : Z := wrap (a + b).

Definition in_range (z : Z) : Prop := min_int <= z <= max_int.

End Int.

(** ** Compilation context *)

Inductive context : Type :=
| Host     (* TLANG_HOST is defined *)
| Device.  (* TLANG_HOST is not defined *)

(** ** Pointers and the block allocator *)

Definition addr : Type := positive.
Definition ptr : Type := option addr.
Definition nullptr : ptr := None.

(** Modelled from the spec: the Block Allocator ([UnifiedAllocator::alloc]
    on the device, [allocator()->alloc] on the host) lives outside this
    header.  The spec gives it one operation, [alloc(byte_size) ->
    raw_address], bound to the execution context, which never fails
    silently; the address it returns is therefore a real (non-null)
    address.  [H] is the allocator's private state. *)
Class Allocator (H : Type) : Type :=
  alloc : Z -> H -> addr * H.

(** The allocator state together with the trace of the addresses it has
    served, oldest first.  The trace is what "one allocation" is counted
    against. *)
Record world (H : Type) : Type := World {
  heap : H;
  served : list addr
}.
Arguments World {H} _ _.
Arguments heap {H} _.
Arguments served {H} _.

(** [allocate<T>()]: one call of the allocator for [sizeof(T)] bytes; the
    placement-new of [T()] returns the same address. *)
Definition allocate {H} `{Allocator H} (size_of_T : Z) (w : world H)
  : addr * world H :=
  let '(a, h') := alloc size_of_T (heap w) in
  (a, World h' (served w ++ [a])).

(** [k] successive calls of the allocator for [size] bytes each, starting
    from the heap [h]: the addresses they return, oldest first, and the
    heap the last one leaves. *)
Fixpoint alloc_times {H} `{Allocator H} (size : Z) (k : nat) (h : H)
  : list addr * H :=
  match k with
  | O => ([], h)
  | S k' =>
      let '(l, h1) := alloc_times size k' h in
      let '(a, h2) := alloc size h1 in
      (l ++ [a], h2)
  end.

(** A bump allocator, used to run the model on concrete inputs. *)
#[global] Instance bump_alloc : Allocator positive :=
  fun size h => (h, (h + Z.to_pos size)%positive).

Definition bump_world : world positive := World 1%positive [].

(** ** The member functions each struct declares *)

Inductive node_kind : Type :=
| Root | Dense | Hashed | Pointer | Dynamic | Indirect.

Inductive member : Type :=
| m_look_up | m_get_n | m_activate | m_clear | m_append.

Definition members (k : node_kind) : list member :=
  match k with
  | Root => [m_look_up; m_get_n; m_activate]
  | Dense => [m_look_up; m_get_n; m_activate]
  | Hashed => [m_look_up; m_activate; m_get_n]
  | Pointer => [m_look_up; m_get_n; m_activate]
  | Dynamic => [m_look_up; m_clear; m_append; m_activate; m_get_n]
  | Indirect => [m_get_n; m_look_up; m_clear]
  end.

Definition has_null (k : node_kind) : bool :=
  match k with
  | Root | Dense | Dynamic | Indirect => false
  | Hashed | Pointer => true
  end.

(** ** [layout_root] *)

Module layout_root.
Section layout_root.
Context {child_type : Type}.

Record t : Type := Make { children : child_type }.

(** [&children], whatever [i] is: element 0 of a one-element store. *)
Definition look_up (i : Z) (s : t) : Z * t := (0, s).

Definition get_n (s : t) : Z := 1.

Definition activate (i : Z) (s : t) : t := s.

End layout_root.
Arguments t : clear implicits.
End layout_root.

(** ** [dense] *)

Module dense.
Section dense.
Context {child_type : Type}.
Variable n : Z.

Record t : Type := Make { children : list child_type }.

(** [&children[i]], with no bounds check. *)
Definition look_up (i : Z) (s : t) : Z * t := (i, s).

Definition get_n (s : t) : Z := n.

Definition activate (i : Z) (s : t) : t := s.

End dense.
Arguments t : clear implicits.
End dense.

(** ** [hashed] *)

Module hashed.
Section hashed.
Context {H : Type} `{Allocator H}.
(** [sizeof(child_type)] *)
Variable size_of_child : Z.

(** [std::unordered_map<int, child_type *> data].  The mutex [mut] is
    declared but no member function touches it. *)
Record t : Type := Make { data : gmap Z ptr }.

(** A value-initialised node: the empty map. *)
Definition fresh : t := Make ∅.

(** [data[i]] of [std::unordered_map]: the mapped pointer, a null
    pointer being inserted first when the key is missing. *)
Definition subscript (i : Z) (s : t) : ptr * t :=
  match data s !! i with
  | Some p => (p, s)
  | None => (nullptr, Make (<[i := nullptr]> (data s)))
  end.

Definition activate (i : Z) (s : t) (w : world H) : t * world H :=
  match data s !! i with
  | None =>
      let '(a, w') := allocate size_of_child w in
      (Make (<[i := Some a]> (data s)), w')
  | Some _ => (s, w)
  end.

Definition look_up (c : context) (i : Z) (s : t) (w : world H)
  : ptr * t * world H :=
  match c with
  | Host =>
      let '(s1, w1) := activate i s w in
      let '(p, s2) := subscript i s1 in
      (p, s2, w1)
  | Device =>
      match data s !! i with
      | None => (nullptr, s, w)
      | Some _ =>
          let '(p, s1) := subscript i s in
          (p, s1, w)
      end
  end.

(** [data.size()] returned as an [int]. *)
Definition get_n (s : t) : Z := Int.wrap (Z.of_nat (size (data s))).

Inductive op : Type :=
| LookUp (i : Z)
| Activate (i : Z).

Definition step (c : context) (o : op) (st : t * world H) : t * world H :=
  match o with
  | LookUp i => let '(_, s', w') := look_up c i (fst st) (snd st) in (s', w')
  | Activate i => activate i (fst st) (snd st)
  end.

Definition run (c : context) (ops : list op) (st : t * world H)
  : t * world H :=
  fold_left (fun acc o => step c o acc) ops st.

(** The indices on which the body of [activate] has been executed by a
    sequence of calls: every [activate(i)], and on the host every
    [look_up(i)] too. *)
Definition activated (c : context) (ops : list op) : list Z :=
  flat_map (fun o =>
    match o, c with
    | Activate i, _ => [i]
    | LookUp i, Host => [i]
    | LookUp _, Device => []
    end) ops.

End hashed.
End hashed.

(** ** [pointer] *)

Module pointer.
Section pointer.
Context {H : Type} `{Allocator H}.
Variable size_of_child : Z.

Record t : Type := Make { data : ptr }.

(** The struct has no constructor of its own: a node built by
    [allocate<T>()], that is by [T()], is zero-initialised. *)
Definition fresh : t := Make nullptr.

Definition activate (i : Z) (s : t) (w : world H) : t * world H :=
  match data s with
  | None =>
      let '(a, w') := allocate size_of_child w in
      (Make (Some a), w')
  | Some _ => (s, w)
  end.

Definition look_up (c : context) (i : Z) (s : t) (w : world H)
  : ptr * t * world H :=
  match c with
  | Host =>
      let '(s1, w1) := activate i s w in
      (data s1, s1, w1)
  | Device => (data s, s, w)
  end.

Definition get_n (s : t) : Z := 1.

Inductive op : Type :=
| LookUp (i : Z)
| Activate (i : Z).

Definition step (c : context) (o : op) (st : t * world H) : t * world H :=
  match o with
  | LookUp i => let '(_, s', w') := look_up c i (fst st) (snd st) in (s', w')
  | Activate i => activate i (fst st) (snd st)
  end.

Definition run (c : context) (ops : list op) (st : t * world H)
  : t * world H :=
  fold_left (fun acc o => step c o acc) ops st.

End pointer.
End pointer.

(** ** [dynamic] *)

Module dynamic.
Section dynamic.
Context {child_type : Type}.
Variable max_n : Z.

Record t : Type := Make { data : list child_type; n : Z }.

(** The constructor sets [n] to 0 and leaves the [max_n] slots with
    whatever the storage holds, [init]. *)
Definition fresh (init : list child_type) : t := Make init 0.

(** What a member function leaves behind.  The header checks no index:
    [StoreOutside idx v s] says that the function executed the store
    [data[idx] = v] with [idx] outside [0, max_n), that is outside the
    slot array, the node being [s] at that point.  The effect of such a
    store is not defined, so the run ends there. *)
Inductive outcome : Type :=
| Normal (s : t)
| StoreOutside (idx : Z) (v : child_type) (s : t).

(** Modelled from the spec: the host [atomicAdd] helper is declared
    outside this header (the device one is the CUDA builtin); the spec
    describes it as a fetch-and-increment of the counter: it returns the
    old value and stores the sum. *)
Definition atomicAdd (d : Z) (s : t) : Z * t :=
  (n s, Make (data s) (Int.add (n s) d)).

(** [data[idx] = v] *)
Definition store (idx : Z) (v : child_type) (s : t) : outcome :=
  if (0 <=? idx) && (idx <? max_n)
  then Normal (Make (<[Z.to_nat idx := v]> (data s)) (n s))
  else StoreOutside idx v s.

Definition look_up (c : context) (i : Z) (s : t) : Z * t :=
  match c with
  | Host => (i, Make (data s) (Z.max (n s) (Int.add i 1)))
  | Device => (i, s)
  end.

Definition clear (s : t) : t := Make (data s) 0.

Definition append (v : child_type) (s : t) : outcome :=
  let '(idx, s1) := atomicAdd 1 s in
  store idx v s1.

Definition activate (i : Z) (s : t) : t := s.

Definition get_n (s : t) : Z := n s.

Inductive op : Type :=
| Append (v : child_type)
| LookUp (i : Z)
| Clear
| Activate (i : Z).

Definition step (c : context) (o : op) (s : t) : outcome :=
  match o with
  | Append v => append v s
  | LookUp i => Normal (snd (look_up c i s))
  | Clear => Normal (clear s)
  | Activate i => Normal (activate i s)
  end.

Fixpoint run (c : context) (ops : list op) (s : t) : outcome :=
  match ops with
  | [] => Normal s
  | o :: rest =>
      match step c o s with
      | Normal s' => run c rest s'
      | StoreOutside idx v s' => StoreOutside idx v s'
      end
  end.

(** The indices a caller may pass to [look_up] according to its
    contract: those of the slot array. *)
Definition index_in_capacity (o : op) : Prop :=
  match o with
  | LookUp i => 0 <= i < max_n
  | Append _ | Clear | Activate _ => True
  end.

End dynamic.
Arguments t : clear implicits.
Arguments outcome : clear implicits.
Arguments op : clear implicits.
End dynamic.

(** ** [indirect] *)

Module indirect.
Section indirect.

(** [int data[max_n]] and [std::atomic<int> n]: [load], [store] and the
    conversion to [int] read and write the one counter. *)
Record t : Type := Make { data : list Z; n : Z }.

Definition fresh (init : list Z) : t := Make init 0.

Definition get_n (s : t) : Z := n s.

Definition look_up (c : context) (i : Z) (s : t) : Z * t :=
  match c with
  | Host => (i, Make (data s) (Z.max (n s) (Int.add i 1)))
  | Device => (i, s)
  end.

Definition clear (s : t) : t := Make (data s) 0.

End indirect.
End indirect.

(** ** Sequences of calls *)

(** Calls on an [indirect] node, in program order. *)
Module indirect_calls.

Inductive op : Type :=
| LookUp (i : Z)
| Clear.

Definition step (c : context) (o : op) (s : indirect.t) : indirect.t :=
  match o with
  | LookUp i => snd (indirect.look_up c i s)
  | Clear => indirect.clear s
  end.

Definition run (c : context) (ops : list op) (s : indirect.t) : indirect.t :=
  fold_left (fun acc o => step c o acc) ops s.

End indirect_calls.

(** The calling discipline of device code on a [hashed] node: every
    [look_up(i)] comes after an [activate(i)], or finds [i] among the
    indices [seen] that are present from the start. *)
Fixpoint activate_before_look_up (seen : gset Z) (ops : list hashed.op)
  : bool :=
  match ops with
  | [] => true
  | hashed.Activate i :: rest => activate_before_look_up ({[i]} ∪ seen) rest
  | hashed.LookUp i :: rest =>
      bool_decide (i ∈ seen) && activate_before_look_up seen rest
  end.

(** The number of [append] calls of a sequence that come after its last
    [clear], counted from [k]. *)
Definition appends_since_clear {child_type : Type} (k : Z)
    (ops : list (dynamic.op child_type)) : Z :=
  fold_left
    (fun acc o =>
       match o with
       | dynamic.Append _ => acc + 1
       | dynamic.Clear => 0
       | dynamic.LookUp _ | dynamic.Activate _ => acc
       end) ops k.

(** What the allocator has been asked, as a function of a [hashed] node:
    one call per entry of the map, chained on the heap from [h0], whose
    answers are the pointers of the map and follow [base] in the
    trace. *)
Definition hashed_accounts {H} `{Allocator H} (size_of_child : Z)
    (h0 : H) (base : list addr) (st : hashed.t * world H) : Prop :=
  let calls := alloc_times size_of_child (size (hashed.data st.1)) h0 in
  heap st.2 = calls.2 /\
  served st.2 = base ++ calls.1 /\
  (map_to_list (hashed.data st.1)).*2 ≡ₚ Some <$> calls.1.

(** The same account for the sole slot of a [pointer] node: no call
    while it is null, one call on the heap of [w0] once it is set. *)
Definition pointer_accounts {H} `{Allocator H} (size_of_child : Z)
    (w0 : world H) (st : pointer.t * world H) : Prop :=
  match pointer.data st.1 with
  | None => st.2 = w0
  | Some a =>
      a = (alloc size_of_child (heap w0)).1 /\
      st.2 = World (alloc size_of_child (heap w0)).2 (served w0 ++ [a])
  end.

(** * Properties *)

(** ** Machine integers *)

Lemma wrap_in_range (z : Z) : Int.in_range z -> Int.wrap z = z.
Proof.
  unfold Int.in_range, Int.wrap, Int.min_int, Int.max_int. intros Hz.
  rewrite Z.mod_small by lia. lia.
Qed.

Lemma add_one_in_range (z : Z) :
  Int.min_int <= z < Int.max_int -> Int.add z 1 = z + 1.
Proof.
  intros Hz. apply wrap_in_range. unfold Int.in_range. lia.
Qed.

(** ** [dynamic] *)

Section dynamic_facts.
Context {child_type : Type}.
Variable max_n : Z.
Implicit Types (s : dynamic.t child_type) (v : child_type).
Implicit Types (ops : list (dynamic.op child_type)).

Lemma dynamic_run_app c ops1 ops2 s :
  dynamic.run max_n c (ops1 ++ ops2) s =
  match dynamic.run max_n c ops1 s with
  | dynamic.Normal s' => dynamic.run max_n c ops2 s'
  | dynamic.StoreOutside idx v s' => dynamic.StoreOutside idx v s'
  end.
Proof.
  revert s. induction ops1 as [|o ops1 IH]; intros s; simpl; [done|].
  destruct (dynamic.step max_n c o s); [apply IH | done].
Qed.

(** An append below capacity fills the slot the counter points at. *)
Lemma dynamic_append_below s v :
  0 <= dynamic.n s < max_n -> max_n <= Int.max_int ->
  dynamic.append max_n v s =
  dynamic.Normal
    (dynamic.Make (<[Z.to_nat (dynamic.n s) := v]> (dynamic.data s))
                  (dynamic.n s + 1)).
Proof.
  intros Hn Hmax. unfold dynamic.append, dynamic.atomicAdd, dynamic.store.
  simpl. rewrite add_one_in_range by (unfold Int.min_int; lia).
  destruct (Z.leb_spec 0 (dynamic.n s)); [|lia].
  destruct (Z.ltb_spec (dynamic.n s) max_n); [|lia]. done.
Qed.

(** An append at capacity stores one past the last slot. *)
Lemma dynamic_append_full s v :
  0 <= max_n -> dynamic.n s = max_n ->
  dynamic.append max_n v s =
  dynamic.StoreOutside max_n v
    (dynamic.Make (dynamic.data s) (Int.add max_n 1)).
Proof.
  intros Hmax Hn. unfold dynamic.append, dynamic.atomicAdd, dynamic.store.
  simpl. rewrite Hn.
  destruct (Z.ltb_spec max_n max_n); [lia|].
  by rewrite andb_false_r.
Qed.

Lemma dynamic_appends_fresh c (init vs : list child_type) :
  Z.of_nat (length init) = max_n -> max_n <= Int.max_int ->
  (length vs <= length init)%nat ->
  dynamic.run max_n c (map dynamic.Append vs) (dynamic.fresh init) =
  dynamic.Normal
    (dynamic.Make (vs ++ drop (length vs) init) (Z.of_nat (length vs))).
Proof.
  intros Hlen Hmax. induction vs as [|v vs IH] using rev_ind; intros Hvs.
  - simpl. by rewrite drop_0.
  - rewrite length_app in Hvs. simpl in Hvs.
    rewrite map_app, dynamic_run_app, IH by lia. simpl.
    rewrite dynamic_append_below by (simpl; lia). simpl.
    do 2 f_equal; [|rewrite length_app; simpl; lia].
    rewrite Nat2Z.id.
    destruct (lookup_lt_is_Some_2 init (length vs)) as [x Hx]; [lia|].
    rewrite (drop_S _ _ _ Hx).
    replace (length vs) with (length vs + 0)%nat at 1 by lia.
    rewrite insert_app_r. simpl.
    rewrite <- app_assoc. simpl. do 2 f_equal.
    rewrite length_app. simpl. f_equal. lia.
Qed.

(** The counter stays inside [0, max_n] as long as no store has left
    the array, and the first store that does is the append issued at
    [n = max_n]. *)
Lemma dynamic_run_counter c ops s :
  0 <= max_n <= Int.max_int ->
  Forall (dynamic.index_in_capacity max_n) ops ->
  0 <= dynamic.n s <= max_n ->
  match dynamic.run max_n c ops s with
  | dynamic.Normal s' => 0 <= dynamic.n s' <= max_n
  | dynamic.StoreOutside idx _ s' =>
      idx = max_n /\ dynamic.n s' = Int.add max_n 1
  end.
Proof.
  intros Hmax Hops. revert s.
  induction Hops as [|o ops Ho _ IH]; intros s Hs; simpl; [done|].
  destruct o as [v|i| |i]; simpl.
  - destruct (Z.eq_dec (dynamic.n s) max_n) as [Heq|Hne].
    + rewrite dynamic_append_full by lia. done.
    + rewrite dynamic_append_below by lia. apply IH. simpl. lia.
  - apply IH. destruct c; simpl; [|done].
    simpl in Ho. rewrite add_one_in_range by (unfold Int.min_int; lia). lia.
  - apply IH. simpl. lia.
  - apply IH. done.
Qed.

End dynamic_facts.

Section dynamic_claims.
Context {child_type : Type}.
Variable max_n : Z.
Implicit Types (s : dynamic.t child_type) (v : child_type).
Implicit Types (init vs : list child_type).

(** C1 (as amended).  From a freshly constructed [dynamic] node, under
    any sequence of [append], [look_up], [clear] and [activate] calls
    whose [look_up] indices lie in [0, max_n): as long as no store has
    left the slot array, [get_n()] lies in [0, max_n]; and the only way
    the run leaves the array is an [append] issued at
    [get_n() = max_n], which stores at index [max_n] after having
    advanced the counter to [max_n + 1] (as an [int]). *)
Theorem dynamic_get_n_within_capacity c init
    (ops : list (dynamic.op child_type)) :
  0 <= max_n <= Int.max_int ->
  Forall (dynamic.index_in_capacity max_n) ops ->
  match dynamic.run max_n c ops (dynamic.fresh init) with
  | dynamic.Normal s => 0 <= dynamic.get_n s <= max_n
  | dynamic.StoreOutside idx _ s =>
      idx = max_n /\ dynamic.get_n s = Int.add max_n 1
  end.
Proof.
  intros Hmax Hops.
  apply (dynamic_run_counter max_n c ops (dynamic.fresh init) Hmax Hops).
  simpl. lia.
Qed.

(** C2 (as amended).  On a fresh [dynamic] node of capacity [max_n],
    [max_n] appends succeed: the array holds the appended values and
    [get_n() = max_n].  The next append is not checked: it advances the
    counter to [max_n + 1] (as an [int]) and stores its value at index
    [max_n], one past the last slot; the slots of the array keep their
    contents. *)
Theorem dynamic_append_at_capacity c init vs v :
  Z.of_nat (length init) = max_n -> max_n <= Int.max_int ->
  length vs = length init ->
  dynamic.run max_n c (map dynamic.Append vs) (dynamic.fresh init) =
    dynamic.Normal (dynamic.Make vs max_n) /\
  dynamic.get_n (dynamic.Make vs max_n) = max_n /\
  dynamic.append max_n v (dynamic.Make vs max_n) =
    dynamic.StoreOutside max_n v (dynamic.Make vs (Int.add max_n 1)).
Proof.
  intros Hlen Hmax Hvs. split; [|split].
  - rewrite (dynamic_appends_fresh max_n c init vs Hlen Hmax) by lia.
    rewrite Hvs, drop_all, app_nil_r. do 2 f_equal. lia.
  - done.
  - apply dynamic_append_full; simpl; lia.
Qed.

(** C3 (as amended).  [dynamic] declares [append]; [indirect] declares
    only [get_n], [look_up] and [clear].  [dynamic::append] reserves
    the slot index by a fetch-and-increment of the counter and writes
    the value into that slot, and for every [M <= max_n], [M] appends
    on a fresh node put the [M] values, in order, into slots [0, M),
    leave the other slots alone and leave [get_n() = M]. *)
Theorem dynamic_appends_fill_slots c init vs :
  Z.of_nat (length init) = max_n -> max_n <= Int.max_int ->
  (length vs <= length init)%nat ->
  In m_append (members Dynamic) /\
  members Indirect = [m_get_n; m_look_up; m_clear] /\
  (forall v s,
     dynamic.append max_n v s =
     dynamic.store max_n (dynamic.n s) v
       (dynamic.Make (dynamic.data s) (Int.add (dynamic.n s) 1))) /\
  exists s,
    dynamic.run max_n c (map dynamic.Append vs) (dynamic.fresh init) =
      dynamic.Normal s /\
    dynamic.data s = vs ++ drop (length vs) init /\
    dynamic.get_n s = Z.of_nat (length vs).
Proof.
  intros Hlen Hmax Hvs. repeat split.
  - simpl. tauto.
  - eexists. split; [by apply dynamic_appends_fresh|]. done.
Qed.

(** C9.  [clear()] on a [dynamic] or an [indirect] node makes
    [get_n()] return 0 and leaves every slot of the data array as it
    was. *)
Theorem clear_resets_counter_only :
  (forall s,
     dynamic.get_n (dynamic.clear s) = 0 /\
     dynamic.data (dynamic.clear s) = dynamic.data s) /\
  (forall s : indirect.t,
     indirect.get_n (indirect.clear s) = 0 /\
     indirect.data (indirect.clear s) = indirect.data s).
Proof. by split; intros s; split. Qed.

(** X5.  After [clear()], the values appended before are still in their
    slots, and the next append overwrites slot 0 only. *)
Lemma dynamic_clear_keeps_stale_data c init vs v :
  Z.of_nat (length init) = max_n -> max_n <= Int.max_int ->
  (0 < length vs <= length init)%nat ->
  dynamic.run max_n c (map dynamic.Append vs ++ [dynamic.Clear])
              (dynamic.fresh init) =
    dynamic.Normal (dynamic.Make (vs ++ drop (length vs) init) 0) /\
  dynamic.run max_n c
              (map dynamic.Append vs ++ [dynamic.Clear; dynamic.Append v])
              (dynamic.fresh init) =
    dynamic.Normal
      (dynamic.Make (<[0%nat := v]> (vs ++ drop (length vs) init)) 1).
Proof.
  intros Hlen Hmax Hvs.
  rewrite !dynamic_run_app, !dynamic_appends_fresh by lia.
  split; [done|]. simpl.
  rewrite dynamic_append_below by (simpl; lia). done.
Qed.

(** C10.  On the host, [look_up(i)] on a [dynamic] or an [indirect]
    node sets the counter to [max(previous count, i + 1)]: afterwards
    [get_n()] is at least [i + 1], and it is never smaller than
    before, whatever the index. *)
Theorem host_look_up_raises_counter (i : Z) :
  Int.min_int <= i < Int.max_int ->
  (forall s,
     let s' := snd (dynamic.look_up Host i s) in
     dynamic.get_n s' = Z.max (dynamic.get_n s) (i + 1) /\
     i + 1 <= dynamic.get_n s') /\
  (forall s : indirect.t,
     let s' := snd (indirect.look_up Host i s) in
     indirect.get_n s' = Z.max (indirect.get_n s) (i + 1) /\
     i + 1 <= indirect.get_n s') /\
  (forall (j : Z) s,
     dynamic.get_n s <= dynamic.get_n (snd (dynamic.look_up Host j s))) /\
  (forall (j : Z) (s : indirect.t),
     indirect.get_n s <= indirect.get_n (snd (indirect.look_up Host j s))).
Proof.
  intros Hi. repeat split; simpl;
    unfold dynamic.get_n, indirect.get_n; simpl;
    rewrite ?add_one_in_range by done; lia.
Qed.

End dynamic_claims.

(** ** [hashed] *)

Section hashed_facts.
Context {H : Type} `{Allocator H}.
Variable size_of_child : Z.
Implicit Types (s : hashed.t) (w : world H) (st : hashed.t * world H).
Implicit Types (ops : list hashed.op).

Abbreviation activate := (hashed.activate size_of_child).
Abbreviation look_up := (hashed.look_up size_of_child).
Abbreviation step := (hashed.step size_of_child).
Abbreviation run := (hashed.run size_of_child).

Lemma allocate_served sz w :
  served (allocate sz w).2 = served w ++ [(allocate sz w).1].
Proof. unfold allocate. by destruct (alloc sz (heap w)). Qed.

Lemma hashed_activate_absent i s w :
  hashed.data s !! i = None ->
  activate i s w =
  (hashed.Make (<[i := Some (allocate size_of_child w).1]> (hashed.data s)),
   (allocate size_of_child w).2).
Proof.
  intros Hi. unfold hashed.activate. rewrite Hi.
  by destruct (allocate size_of_child w).
Qed.

Lemma hashed_activate_present i s w :
  is_Some (hashed.data s !! i) -> activate i s w = (s, w).
Proof. intros [p Hp]. unfold hashed.activate. by rewrite Hp. Qed.

Lemma hashed_activate_is_Some i s w :
  is_Some (hashed.data (activate i s w).1 !! i).
Proof.
  destruct (hashed.data s !! i) as [p|] eqn:Hi.
  - rewrite hashed_activate_present by eauto. eauto.
  - rewrite hashed_activate_absent by done. simpl.
    rewrite lookup_insert_eq. eauto.
Qed.

Lemma hashed_activate_other i j s w :
  i <> j -> hashed.data (activate i s w).1 !! j = hashed.data s !! j.
Proof.
  intros Hij. destruct (hashed.data s !! i) as [p|] eqn:Hi.
  - by rewrite hashed_activate_present by eauto.
  - rewrite hashed_activate_absent by done. simpl.
    by rewrite lookup_insert_ne.
Qed.

Lemma hashed_subscript_present i s p :
  hashed.data s !! i = Some p -> hashed.subscript i s = (p, s).
Proof. intros Hp. unfold hashed.subscript. by rewrite Hp. Qed.

(** On the host, [look_up] is [activate] followed by a read of the
    entry. *)
Lemma hashed_look_up_Host i s w :
  look_up Host i s w =
  (default nullptr (hashed.data (activate i s w).1 !! i),
   (activate i s w).1, (activate i s w).2).
Proof.
  destruct (hashed_activate_is_Some i s w) as [p Hp].
  unfold hashed.look_up. destruct (activate i s w) as [s1 w1].
  simpl in *. by rewrite (hashed_subscript_present _ _ _ Hp), Hp.
Qed.

(** On the device, [look_up] is a read. *)
Lemma hashed_look_up_Device i s w :
  look_up Device i s w = (default nullptr (hashed.data s !! i), s, w).
Proof.
  unfold hashed.look_up. destruct (hashed.data s !! i) as [p|] eqn:Hi.
  - by rewrite (hashed_subscript_present _ _ _ Hi).
  - done.
Qed.

(** A step either leaves the node and the world alone or is the
    [activate] of its index. *)
Lemma hashed_step_cases c o st :
  (hashed.activated c [o] = [] /\ step c o st = st) \/
  exists i, hashed.activated c [o] = [i] /\
            step c o st = activate i st.1 st.2.
Proof.
  destruct st as [s w]. destruct o as [i|i]; simpl.
  - destruct c.
    + right. exists i. split; [done|].
      by rewrite hashed_look_up_Host, <- surjective_pairing.
    + left. by rewrite hashed_look_up_Device.
  - right. exists i. split; [|done]. by destruct c.
Qed.

Lemma hashed_run_app c ops1 ops2 st :
  run c (ops1 ++ ops2) st = run c ops2 (run c ops1 st).
Proof. unfold hashed.run. apply fold_left_app. Qed.

Lemma hashed_step_dom c o st :
  dom (hashed.data (step c o st).1) =
  dom (hashed.data st.1) ∪ list_to_set (hashed.activated c [o]).
Proof.
  destruct (hashed_step_cases c o st) as [[-> ->]|(i & -> & ->)]; simpl;
    rewrite (right_id_L ∅ (∪)); [done|].
  destruct (hashed.data st.1 !! i) as [p|] eqn:Hi.
  - rewrite hashed_activate_present by eauto.
    apply (elem_of_dom_2 (D := gset Z)) in Hi.
    symmetry. rewrite (comm_L (∪)). apply subseteq_union_1_L.
    by apply singleton_subseteq_l.
  - rewrite hashed_activate_absent by done. simpl.
    rewrite dom_insert_L. apply (comm_L (∪)).
Qed.

Lemma hashed_activated_app c ops1 ops2 :
  hashed.activated c (ops1 ++ ops2) =
  hashed.activated c ops1 ++ hashed.activated c ops2.
Proof. unfold hashed.activated. apply flat_map_app. Qed.

(** The keys of the map are the activated indices. *)
Lemma hashed_run_dom c ops st :
  dom (hashed.data (run c ops st).1) =
  dom (hashed.data st.1) ∪ list_to_set (hashed.activated c ops).
Proof.
  revert st. induction ops as [|o ops IH]; intros st.
  - simpl. by rewrite (right_id_L ∅ (∪)).
  - change (o :: ops) with ([o] ++ ops).
    rewrite hashed_run_app, hashed_activated_app, IH.
    change (run c [o] st) with (step c o st).
    by rewrite hashed_step_dom, list_to_set_app_L, (assoc_L (∪)).
Qed.

(** An entry, once present, is never replaced. *)
Lemma hashed_step_keeps c o st i p :
  hashed.data st.1 !! i = Some p ->
  hashed.data (step c o st).1 !! i = Some p.
Proof.
  intros Hp. destruct (hashed_step_cases c o st) as [[_ ->]|(j & _ & ->)];
    [done|].
  destruct (decide (j = i)) as [->|Hne].
  - by rewrite hashed_activate_present by eauto.
  - by rewrite hashed_activate_other.
Qed.

Lemma hashed_run_keeps c ops st i p :
  hashed.data st.1 !! i = Some p ->
  hashed.data (run c ops st).1 !! i = Some p.
Proof.
  revert st. induction ops as [|o ops IH]; intros st Hp; [done|].
  simpl. apply IH. by apply hashed_step_keeps.
Qed.

(** No reachable entry holds a null pointer. *)
Lemma hashed_step_nonnull c o st :
  map_Forall (fun _ p => p <> nullptr) (hashed.data st.1) ->
  map_Forall (fun _ p => p <> nullptr) (hashed.data (step c o st).1).
Proof.
  intros Hst. destruct (hashed_step_cases c o st) as [[_ ->]|(j & _ & ->)];
    [done|].
  destruct (hashed.data st.1 !! j) as [p|] eqn:Hj.
  - by rewrite hashed_activate_present by eauto.
  - rewrite hashed_activate_absent by done. simpl.
    by apply map_Forall_insert_2.
Qed.

Lemma hashed_run_nonnull c ops st :
  map_Forall (fun _ p => p <> nullptr) (hashed.data st.1) ->
  map_Forall (fun _ p => p <> nullptr) (hashed.data (run c ops st).1).
Proof.
  revert st. induction ops as [|o ops IH]; intros st Hst; [done|].
  simpl. apply IH. by apply hashed_step_nonnull.
Qed.

(** One served address per entry of the map. *)
Lemma hashed_step_served c o st :
  (length (served (step c o st).2) + size (hashed.data st.1) =
   length (served st.2) + size (hashed.data (step c o st).1))%nat.
Proof.
  destruct (hashed_step_cases c o st) as [[_ ->]|(j & _ & ->)]; [done|].
  destruct (hashed.data st.1 !! j) as [p|] eqn:Hj.
  - by rewrite hashed_activate_present by eauto.
  - rewrite hashed_activate_absent by done. simpl.
    rewrite allocate_served, length_app, map_size_insert_None by done.
    simpl. lia.
Qed.

Lemma hashed_run_served c ops st :
  (length (served (run c ops st).2) + size (hashed.data st.1) =
   length (served st.2) + size (hashed.data (run c ops st).1))%nat.
Proof.
  revert st. induction ops as [|o ops IH]; intros st; [done|].
  simpl. pose proof (IH (step c o st)) as IH'.
  pose proof (hashed_step_served c o st).
  change (fold_left (fun acc o0 => step c o0 acc) ops (step c o st))
    with (run c ops (step c o st)). lia.
Qed.

End hashed_facts.

(** ** [pointer] *)

Section pointer_facts.
Context {H : Type} `{Allocator H}.
Variable size_of_child : Z.
Implicit Types (s : pointer.t) (w : world H) (st : pointer.t * world H).
Implicit Types (ops : list pointer.op).

Abbreviation pactivate := (pointer.activate size_of_child).
Abbreviation plook_up := (pointer.look_up size_of_child).
Abbreviation pstep := (pointer.step size_of_child).
Abbreviation prun := (pointer.run size_of_child).

Lemma pointer_activate_null i s w :
  pointer.data s = nullptr ->
  pactivate i s w =
  (pointer.Make (Some (allocate size_of_child w).1),
   (allocate size_of_child w).2).
Proof.
  intros Hs. unfold pointer.activate. rewrite Hs.
  by destruct (allocate size_of_child w).
Qed.

Lemma pointer_activate_set i s w :
  pointer.data s <> nullptr -> pactivate i s w = (s, w).
Proof.
  intros Hs. unfold pointer.activate. by destruct (pointer.data s).
Qed.

Lemma pointer_activate_nonnull i s w :
  pointer.data (pactivate i s w).1 <> nullptr.
Proof.
  destruct (pointer.data s) as [a|] eqn:Hs.
  - rewrite pointer_activate_set by (by rewrite Hs). simpl. by rewrite Hs.
  - by rewrite pointer_activate_null.
Qed.

Lemma pointer_look_up_Host i s w :
  plook_up Host i s w =
  (pointer.data (pactivate i s w).1, (pactivate i s w).1,
   (pactivate i s w).2).
Proof. unfold pointer.look_up. by destruct (pactivate i s w). Qed.

(** A step either leaves the node and the world alone or is an
    [activate]. *)
Lemma pointer_step_cases c o st :
  pstep c o st = st \/ exists i, pstep c o st = pactivate i st.1 st.2.
Proof.
  destruct st as [s w]. destruct o as [i|i]; simpl.
  - destruct c.
    + right. exists i.
      by rewrite pointer_look_up_Host, <- surjective_pairing.
    + by left.
  - right. by exists i.
Qed.

(** A pointer, once set, is never replaced. *)
Lemma pointer_run_keeps c ops st :
  pointer.data st.1 <> nullptr -> prun c ops st = st.
Proof.
  revert st. induction ops as [|o ops IH]; intros st Hst; [done|].
  simpl. destruct (pointer_step_cases c o st) as [->|[i ->]].
  - by apply IH.
  - rewrite pointer_activate_set, <- surjective_pairing by done.
    by apply IH.
Qed.

(** Without a call of [activate], a device run leaves the node and the
    world alone. *)
Lemma pointer_run_Device_look_ups ops st :
  Forall (fun o => exists i, o = pointer.LookUp i) ops ->
  prun Device ops st = st.
Proof.
  intros Hops. revert st.
  induction Hops as [|o ops [i ->] _ IH]; intros st; [done|].
  simpl. rewrite <- surjective_pairing. apply IH.
Qed.

End pointer_facts.

(** ** Look-up and activation of [hashed] and [pointer] nodes *)

Section activation_claims.
Context {H : Type} `{Allocator H} {child_type : Type}.
Variable size_of_child : Z.

Lemma hashed_activated_Device ops i :
  In i (hashed.activated Device ops) -> In (hashed.Activate i) ops.
Proof.
  unfold hashed.activated. rewrite in_flat_map.
  intros ([j|j] & Hin & Hj); simpl in Hj; [done|].
  by destruct Hj as [->|[]].
Qed.

(** C4.  In a device build, [look_up(i)] on a [hashed] node on which
    [activate(i)] has not been called, and on a [pointer] node on which
    [activate] has not been called, returns the null pointer, leaves
    the node as it is and calls the allocator not at all. *)
Theorem device_look_up_before_activate
    (opsh : list hashed.op) (opsp : list pointer.op) (w0 : world H) (i : Z) :
  Forall (fun o => o <> hashed.Activate i) opsh ->
  Forall (fun o => exists j, o = pointer.LookUp j) opsp ->
  (let st := hashed.run size_of_child Device opsh (hashed.fresh, w0) in
   hashed.look_up size_of_child Device i st.1 st.2 = (nullptr, st.1, st.2)) /\
  (let st := pointer.run size_of_child Device opsp (pointer.fresh, w0) in
   pointer.look_up size_of_child Device i st.1 st.2
     = (nullptr, st.1, st.2)).
Proof.
  intros Hh Hp. split.
  - intros st. rewrite hashed_look_up_Device.
    assert (hashed.data st.1 !! i = None) as ->; [|done].
    apply (not_elem_of_dom (D := gset Z)). unfold st.
    rewrite hashed_run_dom. simpl. rewrite dom_empty_L, elem_of_union.
    intros [Hi|Hi]; [by apply not_elem_of_empty in Hi|].
    apply elem_of_list_to_set, list_elem_of_In, hashed_activated_Device,
      list_elem_of_In in Hi.
    rewrite Forall_forall in Hh. by apply (Hh _ Hi).
  - intros st. unfold st.
    by rewrite pointer_run_Device_look_ups.
Qed.

(** C5.  In a host build, [look_up(i)] on a [hashed] or a [pointer]
    node activates: the node and the allocator are left exactly as
    [activate(i)] leaves them, the slot of [i] holds a child, and that
    child is what [look_up] returns. *)
Theorem host_look_up_activates :
  (forall (ops : list hashed.op) (w0 : world H) (i : Z),
     let st := hashed.run size_of_child Host ops (hashed.fresh, w0) in
     let st1 := hashed.activate size_of_child i st.1 st.2 in
     exists a,
       hashed.look_up size_of_child Host i st.1 st.2 = (Some a, st1.1, st1.2) /\
       hashed.data st1.1 !! i = Some (Some a)) /\
  (forall (s : pointer.t) (w : world H) (i : Z),
     let st1 := pointer.activate size_of_child i s w in
     exists a,
       pointer.look_up size_of_child Host i s w = (Some a, st1.1, st1.2) /\
       pointer.data st1.1 = Some a).
Proof.
  split.
  - intros ops w0 i st st1. rewrite hashed_look_up_Host. fold st1.
    destruct (hashed_activate_is_Some size_of_child i st.1 st.2) as [p Hp].
    fold st1 in Hp. rewrite Hp. simpl.
    assert (map_Forall (fun _ q => q <> nullptr) (hashed.data st1.1)) as Hnn.
    { change st1 with
        (hashed.step size_of_child Host (hashed.Activate i) st).
      apply hashed_step_nonnull, hashed_run_nonnull. simpl.
      apply map_Forall_empty. }
    specialize (Hnn i p Hp). destruct p as [a|]; [|done]. by exists a.
  - intros s w i st1. rewrite pointer_look_up_Host. fold st1.
    pose proof (pointer_activate_nonnull size_of_child i s w) as Hnn.
    fold st1 in Hnn. destruct (pointer.data st1.1) as [a|]; [|done].
    by exists a.
Qed.


End activation_claims.

Section allocator_facts.
Context {H : Type} `{Allocator H}.
Variable size_of_child : Z.

(** [allocate] is one call of [alloc] on the current heap. *)
Lemma allocate_alloc (w : world H) :
  allocate size_of_child w =
  ((alloc size_of_child (heap w)).1,
   World (alloc size_of_child (heap w)).2
         (served w ++ [(alloc size_of_child (heap w)).1])).
Proof. unfold allocate. by destruct (alloc size_of_child (heap w)). Qed.

Lemma alloc_times_S (k : nat) (h : H) :
  alloc_times size_of_child (S k) h =
  ((alloc_times size_of_child k h).1 ++
     [(alloc size_of_child (alloc_times size_of_child k h).2).1],
   (alloc size_of_child (alloc_times size_of_child k h).2).2).
Proof.
  simpl. destruct (alloc_times size_of_child k h) as [l h1]. simpl.
  by destruct (alloc size_of_child h1).
Qed.

Lemma hashed_step_accounts h0 base c o st :
  hashed_accounts size_of_child h0 base st ->
  hashed_accounts size_of_child h0 base (hashed.step size_of_child c o st).
Proof.
  intros (Hheap & Hserved & Hvals).
  destruct (hashed_step_cases size_of_child c o st)
    as [[_ ->]|(j & _ & ->)]; [done|].
  destruct (hashed.data st.1 !! j) as [p|] eqn:Hj.
  { by rewrite hashed_activate_present by eauto. }
  rewrite hashed_activate_absent, allocate_alloc by done.
  unfold hashed_accounts. simpl.
  rewrite map_size_insert_None, alloc_times_S by done. simpl.
  rewrite <- Hheap. split; [done|]. split.
  - by rewrite Hserved, app_assoc.
  - rewrite map_to_list_insert by done. simpl.
    rewrite Hvals, fmap_app. simpl. apply Permutation_cons_append.
Qed.

Lemma hashed_run_accounts h0 base c ops st :
  hashed_accounts size_of_child h0 base st ->
  hashed_accounts size_of_child h0 base (hashed.run size_of_child c ops st).
Proof.
  revert st. induction ops as [|o ops IH]; intros st Hst; [done|].
  change (hashed.run size_of_child c (o :: ops) st)
    with (hashed.run size_of_child c ops (hashed.step size_of_child c o st)).
  by apply IH, hashed_step_accounts.
Qed.

Lemma pointer_step_accounts w0 c o st :
  pointer_accounts size_of_child w0 st ->
  pointer_accounts size_of_child w0 (pointer.step size_of_child c o st).
Proof.
  intros Hst.
  destruct (pointer_step_cases size_of_child c o st) as [->|[i ->]];
    [done|].
  destruct (pointer.data st.1) as [a|] eqn:Hd.
  - rewrite pointer_activate_set by (by rewrite Hd).
    by rewrite <- surjective_pairing.
  - rewrite pointer_activate_null, allocate_alloc by done.
    unfold pointer_accounts in *. rewrite Hd in Hst. simpl.
    by rewrite Hst.
Qed.

Lemma pointer_run_accounts w0 c ops st :
  pointer_accounts size_of_child w0 st ->
  pointer_accounts size_of_child w0 (pointer.run size_of_child c ops st).
Proof.
  revert st. induction ops as [|o ops IH]; intros st Hst; [done|].
  change (pointer.run size_of_child c (o :: ops) st)
    with (pointer.run size_of_child c ops
            (pointer.step size_of_child c o st)).
  by apply IH, pointer_step_accounts.
Qed.

End allocator_facts.

Section allocation_claims.
Context {H : Type} `{Allocator H} {child_type : Type}.
Variable size_of_child : Z.

(** C7.  [activate] of a [hashed] or a [pointer] node calls the
    allocator exactly once for a child that is not there yet: the world
    it leaves is the one a single [alloc(sizeof(child_type))] on the
    current heap leaves, and the address that call returned is what is
    installed.  When the child is there, [activate] does nothing.
    Whatever calls follow, a later [activate] of the same index (of the
    sole slot, for [pointer]) changes neither the node nor the
    allocator, and the installed reference stays the same.  Over a whole
    run from a fresh node, the allocator has been called once per entry
    of the [hashed] map (once at most for a [pointer]), each call on the
    heap the previous one left, and the addresses returned are the
    pointers the node holds. *)
Theorem activate_allocates_once :
  (forall (i : Z) (s : hashed.t) (w : world H),
     let st1 := hashed.activate size_of_child i s w in
     let call := alloc size_of_child (heap w) in
     (hashed.data s !! i = None ->
      st1 = (hashed.Make (<[i := Some call.1]> (hashed.data s)),
             World call.2 (served w ++ [call.1]))) /\
     (is_Some (hashed.data s !! i) -> st1 = (s, w)) /\
     (forall (c : context) (ops : list hashed.op),
        let st2 := hashed.run size_of_child c ops st1 in
        hashed.activate size_of_child i st2.1 st2.2 = st2 /\
        hashed.data st2.1 !! i = hashed.data st1.1 !! i)) /\
  (forall (c : context) (ops : list hashed.op) (w0 : world H),
     let st := hashed.run size_of_child c ops (hashed.fresh, w0) in
     let calls :=
       alloc_times size_of_child (size (hashed.data st.1)) (heap w0) in
     heap st.2 = calls.2 /\
     served st.2 = served w0 ++ calls.1 /\
     (map_to_list (hashed.data st.1)).*2 ≡ₚ Some <$> calls.1 /\
     length (served st.2) =
     (length (served w0) + size (hashed.data st.1))%nat) /\
  (forall (i : Z) (s : pointer.t) (w : world H),
     let st1 := pointer.activate size_of_child i s w in
     let call := alloc size_of_child (heap w) in
     (pointer.data s = nullptr ->
      st1 = (pointer.Make (Some call.1),
             World call.2 (served w ++ [call.1]))) /\
     (pointer.data s <> nullptr -> st1 = (s, w)) /\
     (forall (c : context) (ops : list pointer.op) (j : Z),
        let st2 := pointer.run size_of_child c ops st1 in
        pointer.activate size_of_child j st2.1 st2.2 = st2 /\
        pointer.data st2.1 = pointer.data st1.1)) /\
  (forall (c : context) (ops : list pointer.op) (w0 : world H),
     let st := pointer.run size_of_child c ops (pointer.fresh, w0) in
     let call := alloc size_of_child (heap w0) in
     (pointer.data st.1 = nullptr /\ st.2 = w0) \/
     (pointer.data st.1 = Some call.1 /\
      st.2 = World call.2 (served w0 ++ [call.1]))).
Proof.
  split; [|split; [|split]].
  - intros i s w st1 call. split; [|split].
    + intros Hi. unfold st1, call.
      by rewrite hashed_activate_absent, allocate_alloc by done.
    + intros Hi. by apply hashed_activate_present.
    + intros c ops st2.
      destruct (hashed_activate_is_Some size_of_child i s w) as [p Hp].
      fold st1 in Hp.
      pose proof (hashed_run_keeps size_of_child c ops st1 i p Hp) as Hk.
      fold st2 in Hk. split.
      * rewrite hashed_activate_present by eauto.
        by rewrite <- surjective_pairing.
      * by rewrite Hk, Hp.
  - intros c ops w0 st calls.
    destruct (hashed_run_accounts size_of_child (heap w0) (served w0) c ops
                (hashed.fresh, w0)) as (Hheap & Hserved & Hvals).
    { unfold hashed_accounts. simpl. rewrite map_size_empty. simpl.
      by rewrite app_nil_r, map_to_list_empty. }
    fold st in Hheap, Hserved, Hvals. fold calls in Hheap, Hserved, Hvals.
    repeat split; try done.
    pose proof (hashed_run_served size_of_child c ops (hashed.fresh, w0))
      as Hs.
    fold st in Hs. simpl in Hs. rewrite map_size_empty in Hs. lia.
  - intros i s w st1 call. split; [|split].
    + intros Hs. unfold st1, call.
      by rewrite pointer_activate_null, allocate_alloc by done.
    + intros Hs. by apply pointer_activate_set.
    + intros c ops j st2.
      pose proof (pointer_activate_nonnull size_of_child i s w) as Hnn.
      fold st1 in Hnn. unfold st2.
      rewrite pointer_run_keeps by done. split; [|done].
      rewrite pointer_activate_set by done.
      by rewrite <- surjective_pairing.
  - intros c ops w0 st call.
    pose proof (pointer_run_accounts size_of_child w0 c ops
                  (pointer.fresh, w0) eq_refl) as Hacc.
    fold st in Hacc. unfold pointer_accounts in Hacc.
    destruct (pointer.data st.1) as [a|]; [right|by left].
    destruct Hacc as [-> Hw]. by split.
Qed.

(** C8.  [get_n()] of a [hashed] node is the number of distinct indices
    activated so far (an index activated twice counts once), as long as
    that number fits an [int]; [get_n()] of a [pointer] node is 1,
    whether the slot is populated or not, and [get_n()] of the root
    is 1. *)
Theorem get_n_counts
    (c : context) (ops : list hashed.op) (w0 : world H) :
  Z.of_nat (size (list_to_set (hashed.activated c ops) : gset Z))
    <= Int.max_int ->
  hashed.get_n (hashed.run size_of_child c ops (hashed.fresh, w0)).1 =
    Z.of_nat (size (list_to_set (hashed.activated c ops) : gset Z)) /\
  (forall s : pointer.t, pointer.get_n s = 1) /\
  (forall s : layout_root.t child_type, layout_root.get_n s = 1).
Proof.
  intros Hfit. split; [|done].
  unfold hashed.get_n. rewrite <- size_dom, hashed_run_dom. simpl.
  rewrite dom_empty_L, (left_id_L ∅ (∪)).
  apply wrap_in_range. unfold Int.in_range, Int.min_int. lia.
Qed.

End allocation_claims.

(** * Concrete runs *)

(** C1, as stated, fails.  Capacity 2: three appends leave the counter
    at 3, the third one storing at index 2, outside the slot array; and
    on the host a single [look_up(2)] raises the counter of a fresh node
    to 3 as well. *)
Lemma dynamic_get_n_exceeds_max_n :
  dynamic.run 2 Device
    [dynamic.Append 7; dynamic.Append 8; dynamic.Append 9]
    (dynamic.fresh [0; 0])
  = dynamic.StoreOutside 2 9 (dynamic.Make [7; 8] 3) /\
  ~ dynamic.get_n (dynamic.Make [7; 8] 3) <= 2 /\
  dynamic.run 2 Host [dynamic.LookUp 2] (dynamic.fresh [0; 0])
  = dynamic.Normal (dynamic.Make [0; 0] 3) /\
  ~ dynamic.get_n (dynamic.Make [0; 0] 3) <= 2.
Proof. repeat split; vm_compute; congruence. Qed.

Lemma dynamic_get_n_within_capacity_witness :
  match
    dynamic.run 2 Host
      [dynamic.Append 7; dynamic.LookUp 1; dynamic.Clear;
       dynamic.Activate 5; dynamic.Append 8]
      (dynamic.fresh [0; 0])
  with
  | dynamic.Normal s => 0 <= dynamic.get_n s <= 2
  | dynamic.StoreOutside idx _ s =>
      idx = 2 /\ dynamic.get_n s = Int.add 2 1
  end.
Proof.
  apply (dynamic_get_n_within_capacity 2 Host [0; 0]).
  - unfold Int.max_int. lia.
  - repeat constructor; simpl; lia.
Defined.

(** C2, as stated, fails.  Capacity 2: after two appends the node is
    full, and the third append is not rejected: it moves the counter to 3
    and stores 9 at index 2, outside the slot array. *)
Lemma dynamic_append_past_capacity :
  dynamic.run 2 Device [dynamic.Append 7; dynamic.Append 8]
    (dynamic.fresh [0; 0])
  = dynamic.Normal (dynamic.Make [7; 8] 2) /\
  dynamic.append 2 9 (dynamic.Make [7; 8] 2)
  = dynamic.StoreOutside 2 9 (dynamic.Make [7; 8] 3).
Proof. split; reflexivity. Qed.

Lemma dynamic_append_at_capacity_witness :
  dynamic.run 2 Device (map dynamic.Append [7; 8]) (dynamic.fresh [0; 0])
  = dynamic.Normal (dynamic.Make [7; 8] 2) /\
  dynamic.get_n (dynamic.Make [7; 8] 2) = 2 /\
  dynamic.append 2 9 (dynamic.Make [7; 8] 2)
  = dynamic.StoreOutside 2 9 (dynamic.Make [7; 8] (Int.add 2 1)).
Proof.
  apply (dynamic_append_at_capacity 2 Device [0; 0] [7; 8] 9).
  - reflexivity.
  - unfold Int.max_int. lia.
  - reflexivity.
Defined.

(** C3, as stated, fails: [indirect] declares no [append]. *)
Lemma indirect_declares_no_append :
  ~ (In m_append (members Dynamic) /\ In m_append (members Indirect)).
Proof.
  intros [_ Hin]. simpl in Hin.
  destruct Hin as [Hm|[Hm|[Hm|[]]]]; discriminate Hm.
Qed.

Lemma dynamic_appends_fill_slots_witness :
  exists s,
    dynamic.run 3 Host (map dynamic.Append [7; 8]) (dynamic.fresh [0; 0; 0])
    = dynamic.Normal s /\
    dynamic.data s = [7; 8; 0] /\
    dynamic.get_n s = 2.
Proof.
  apply (dynamic_appends_fill_slots 3 Host [0; 0; 0] [7; 8]).
  - reflexivity.
  - unfold Int.max_int. lia.
  - simpl. lia.
Defined.

Lemma device_look_up_before_activate_witness :
  (let st :=
     hashed.run 8 Device
       [hashed.Activate 1; hashed.LookUp 3; hashed.Activate 2]
       (hashed.fresh, bump_world) in
   hashed.look_up 8 Device 3 st.1 st.2 = (nullptr, st.1, st.2)) /\
  (let st :=
     pointer.run 8 Device [pointer.LookUp 0; pointer.LookUp 0]
       (pointer.fresh, bump_world) in
   pointer.look_up 8 Device 3 st.1 st.2 = (nullptr, st.1, st.2)).
Proof.
  apply (device_look_up_before_activate 8).
  - repeat constructor; intros [=].
  - repeat constructor; eexists; reflexivity.
Defined.

(** The scenario of the spec: sub-indices 0, 5, 5 and 100 looked up on
    one host [hashed] node give three entries. *)
Lemma get_n_counts_witness :
  hashed.get_n
    (hashed.run 8 Host
       [hashed.LookUp 0; hashed.LookUp 5; hashed.LookUp 5; hashed.LookUp 100]
       (hashed.fresh, bump_world)).1 = 3.
Proof.
  apply (get_n_counts (child_type := Z) 8 Host
           [hashed.LookUp 0; hashed.LookUp 5; hashed.LookUp 5;
            hashed.LookUp 100] bump_world).
  vm_compute. discriminate.
Defined.

Lemma host_look_up_raises_counter_witness :
  dynamic.get_n (dynamic.look_up Host 3 (dynamic.Make [7; 8; 0; 0; 0] 2)).2
  = Z.max 2 (3 + 1) /\
  indirect.get_n (indirect.look_up Host 3 (indirect.Make [7; 8; 0; 0; 0] 2)).2
  = Z.max 2 (3 + 1).
Proof.
  assert (Int.min_int <= 3 < Int.max_int) as Hi
    by (unfold Int.min_int, Int.max_int; lia).
  destruct (host_look_up_raises_counter (child_type := Z) 3 Hi)
    as (Hd & Hind & _).
  split.
  - apply (Hd (dynamic.Make [7; 8; 0; 0; 0] 2)).
  - apply (Hind (indirect.Make [7; 8; 0; 0; 0] 2)).
Defined.

(** * Further properties of the node operations *)

Lemma wrap_bounds (z : Z) : Int.min_int <= Int.wrap z <= Int.max_int.
Proof.
  unfold Int.wrap, Int.min_int, Int.max_int.
  pose proof (Z.mod_pos_bound (z + 2 ^ 31) (2 ^ 32)). lia.
Qed.

Lemma foldr_max_base (a b : Z) (l : list Z) :
  foldr Z.max (Z.max a b) l = Z.max b (foldr Z.max a l).
Proof. induction l as [|x l IH]; simpl; lia. Qed.

Lemma foldr_max_perm (a : Z) (l1 l2 : list Z) :
  l1 ≡ₚ l2 -> foldr Z.max a l1 = foldr Z.max a l2.
Proof. induction 1; simpl; lia. Qed.

(** ** [dynamic] and [indirect]: the counter *)

Section counter_facts.
Context {child_type : Type}.
Variable max_n : Z.
Implicit Types (s : dynamic.t child_type) (v : child_type).
Implicit Types (ops : list (dynamic.op child_type)).

(** An append at or beyond capacity stores at the index the counter
    holds. *)
Lemma dynamic_append_beyond s v :
  max_n <= dynamic.n s ->
  dynamic.append max_n v s =
  dynamic.StoreOutside (dynamic.n s) v
    (dynamic.Make (dynamic.data s) (Int.add (dynamic.n s) 1)).
Proof.
  intros Hn. unfold dynamic.append, dynamic.atomicAdd, dynamic.store. simpl.
  destruct (Z.ltb_spec (dynamic.n s) max_n); [lia|].
  by rewrite andb_false_r.
Qed.

Lemma dynamic_run_stays_int c ops s :
  0 <= max_n <= Int.max_int ->
  0 <= dynamic.n s <= Int.max_int ->
  match dynamic.run max_n c ops s with
  | dynamic.Normal s' =>
      0 <= dynamic.get_n s' <= Int.max_int /\
      length (dynamic.data s') = length (dynamic.data s)
  | dynamic.StoreOutside idx _ s' =>
      max_n <= idx <= Int.max_int /\
      length (dynamic.data s') = length (dynamic.data s)
  end.
Proof.
  intros Hmax. revert s.
  induction ops as [|o ops IH]; intros s Hs; simpl; [done|].
  destruct o as [v|i| |i]; simpl.
  - destruct (Z.lt_ge_cases (dynamic.n s) max_n) as [Hlt|Hge].
    + rewrite dynamic_append_below by lia.
      specialize (IH (dynamic.Make (<[Z.to_nat (dynamic.n s) := v]>
                                      (dynamic.data s)) (dynamic.n s + 1))).
      simpl in IH. rewrite length_insert in IH. apply IH. lia.
    + rewrite dynamic_append_beyond by lia. simpl. lia.
  - destruct c; simpl; [|by apply IH].
    specialize (IH (dynamic.Make (dynamic.data s)
                      (Z.max (dynamic.n s) (Int.add i 1)))).
    apply IH. simpl. pose proof (wrap_bounds (i + 1)).
    unfold Int.add. lia.
  - specialize (IH (dynamic.clear s)). apply IH. simpl.
    unfold Int.max_int. lia.
  - by apply IH.
Qed.

Lemma dynamic_run_Device_counter ops s :
  0 <= max_n <= Int.max_int ->
  0 <= dynamic.n s <= max_n ->
  match dynamic.run max_n Device ops s with
  | dynamic.Normal s' =>
      dynamic.get_n s' = appends_since_clear (dynamic.n s) ops /\
      0 <= dynamic.get_n s' <= max_n
  | dynamic.StoreOutside idx _ _ => idx = max_n
  end.
Proof.
  intros Hmax. revert s. unfold appends_since_clear.
  induction ops as [|o ops IH]; intros s Hs; simpl; [done|].
  destruct o as [v|i| |i]; simpl.
  - destruct (Z.eq_dec (dynamic.n s) max_n) as [Heq|Hne].
    + rewrite dynamic_append_beyond by lia. simpl. lia.
    + rewrite dynamic_append_below by lia.
      specialize (IH (dynamic.Make (<[Z.to_nat (dynamic.n s) := v]>
                                      (dynamic.data s)) (dynamic.n s + 1))).
      apply IH. simpl. lia.
  - by apply IH.
  - specialize (IH (dynamic.clear s)). apply IH. simpl. lia.
  - by apply IH.
Qed.

(** Host look-ups alone: the counter becomes the largest of its old
    value and the successors of the indices, and the slots are left
    alone. *)
Lemma dynamic_run_Host_look_ups (idxs : list Z) s :
  Forall (fun i => Int.min_int <= i < Int.max_int) idxs ->
  dynamic.run max_n Host (map dynamic.LookUp idxs) s =
  dynamic.Normal
    (dynamic.Make (dynamic.data s)
       (foldr Z.max (dynamic.n s) (map Z.succ idxs))).
Proof.
  intros Hidx. revert s.
  induction Hidx as [|i idxs Hi _ IH]; intros s; simpl; [by destruct s|].
  rewrite IH. simpl. rewrite add_one_in_range by done.
  rewrite foldr_max_base. repeat f_equal; lia.
Qed.

Lemma indirect_run_Host_look_ups (idxs : list Z) (s : indirect.t) :
  Forall (fun i => Int.min_int <= i < Int.max_int) idxs ->
  indirect_calls.run Host (map indirect_calls.LookUp idxs) s =
  indirect.Make (indirect.data s)
    (foldr Z.max (indirect.n s) (map Z.succ idxs)).
Proof.
  intros Hidx. revert s. unfold indirect_calls.run.
  induction Hidx as [|i idxs Hi _ IH]; intros s; simpl; [by destruct s|].
  rewrite IH. simpl. rewrite add_one_in_range by done.
  rewrite foldr_max_base. repeat f_equal; lia.
Qed.

End counter_facts.

Section counter_properties.
Context {child_type : Type}.
Variable max_n : Z.
Implicit Types (s : dynamic.t child_type) (v : child_type).
Implicit Types (init vs : list child_type).

(** X1.  Whatever indices [look_up] is given, in either build: while no
    store has left the slot array the counter of a [dynamic] node stays
    in [0, INT_MAX] (it never goes negative and never wraps) and the
    array keeps its length; and a store that does leave the array is
    always at an index at or past the end, never before slot 0. *)
Theorem dynamic_counter_stays_int c init
    (ops : list (dynamic.op child_type)) :
  0 <= max_n <= Int.max_int ->
  match dynamic.run max_n c ops (dynamic.fresh init) with
  | dynamic.Normal s =>
      0 <= dynamic.get_n s <= Int.max_int /\
      length (dynamic.data s) = length init
  | dynamic.StoreOutside idx _ s =>
      max_n <= idx <= Int.max_int /\
      length (dynamic.data s) = length init
  end.
Proof.
  intros Hmax.
  apply (dynamic_run_stays_int max_n c ops (dynamic.fresh init) Hmax).
  simpl. unfold Int.max_int. lia.
Qed.

(** X2.  In a device build [look_up] and [activate] leave the counter of
    a [dynamic] node alone: after any sequence of calls that stays inside
    the array, [get_n()] is the number of appends since the last
    [clear()], and that number is at most [max_n]; the only store that
    leaves the array is at index [max_n]. *)
Theorem dynamic_device_counter init (ops : list (dynamic.op child_type)) :
  0 <= max_n <= Int.max_int ->
  match dynamic.run max_n Device ops (dynamic.fresh init) with
  | dynamic.Normal s =>
      dynamic.get_n s = appends_since_clear 0 ops /\
      0 <= dynamic.get_n s <= max_n
  | dynamic.StoreOutside idx _ _ => idx = max_n
  end.
Proof.
  intros Hmax.
  apply (dynamic_run_Device_counter max_n ops (dynamic.fresh init) Hmax).
  simpl. lia.
Qed.

(** X3.  In a host build, a series of [look_up] calls on a [dynamic] or
    an [indirect] node leaves the slots alone and sets the counter to the
    largest of its old value and [i + 1] over the indices [i] looked up;
    the order of the calls does not matter. *)
Theorem host_look_ups_high_water (idxs idxs' : list Z) :
  Forall (fun i => Int.min_int <= i < Int.max_int) idxs ->
  idxs ≡ₚ idxs' ->
  (forall s,
     dynamic.run max_n Host (map dynamic.LookUp idxs) s =
     dynamic.Normal
       (dynamic.Make (dynamic.data s)
          (foldr Z.max (dynamic.n s) (map Z.succ idxs))) /\
     dynamic.run max_n Host (map dynamic.LookUp idxs') s =
     dynamic.run max_n Host (map dynamic.LookUp idxs) s) /\
  (forall s : indirect.t,
     indirect_calls.run Host (map indirect_calls.LookUp idxs) s =
     indirect.Make (indirect.data s)
       (foldr Z.max (indirect.n s) (map Z.succ idxs)) /\
     indirect_calls.run Host (map indirect_calls.LookUp idxs') s =
     indirect_calls.run Host (map indirect_calls.LookUp idxs) s).
Proof.
  intros Hidx Hperm.
  assert (Forall (fun i => Int.min_int <= i < Int.max_int) idxs') as Hidx'
    by (by rewrite <- Hperm).
  assert (forall a, foldr Z.max a (map Z.succ idxs') =
                    foldr Z.max a (map Z.succ idxs)) as Hmaxes.
  { intros a. apply foldr_max_perm. by rewrite Hperm. }
  split; intros s.
  - rewrite !dynamic_run_Host_look_ups by done. by rewrite Hmaxes.
  - rewrite !indirect_run_Host_look_ups by done. by rewrite Hmaxes.
Qed.

(** X4.  Reading back what was appended: after [M <= max_n] appends on a
    fresh [dynamic] node, [look_up(i)] for a slot [i < M] returns the
    address of slot [i], that slot holds the value of the [i]-th append,
    and the call leaves the node (its counter included) unchanged, in
    the host build as in the device build. *)
Theorem dynamic_look_up_reads_appended c init vs (i : nat) v :
  Z.of_nat (length init) = max_n -> max_n <= Int.max_int ->
  (length vs <= length init)%nat ->
  vs !! i = Some v ->
  exists s,
    dynamic.run max_n c (map dynamic.Append vs) (dynamic.fresh init) =
      dynamic.Normal s /\
    dynamic.look_up c (Z.of_nat i) s = (Z.of_nat i, s) /\
    dynamic.data s !! i = Some v.
Proof.
  intros Hlen Hmax Hvs Hi. eexists. split; [by apply dynamic_appends_fresh|].
  pose proof (lookup_lt_Some _ _ _ Hi) as Hlt. split.
  - destruct c; simpl; [|done].
    rewrite add_one_in_range by (unfold Int.min_int; lia).
    do 2 f_equal. lia.
  - simpl. by rewrite lookup_app_l.
Qed.

End counter_properties.

Lemma dynamic_counter_stays_int_witness :
  match
    dynamic.run 2 Host
      [dynamic.LookUp (-5); dynamic.Append 7; dynamic.LookUp 1;
       dynamic.Append 8]
      (dynamic.fresh [0; 0])
  with
  | dynamic.Normal s =>
      0 <= dynamic.get_n s <= Int.max_int /\
      length (dynamic.data s) = length [0; 0]
  | dynamic.StoreOutside idx _ s =>
      2 <= idx <= Int.max_int /\
      length (dynamic.data s) = length [0; 0]
  end.
Proof.
  apply (dynamic_counter_stays_int 2 Host [0; 0]).
  unfold Int.max_int. lia.
Defined.

Lemma dynamic_device_counter_witness :
  match
    dynamic.run 3 Device
      [dynamic.Append 7; dynamic.Append 8; dynamic.LookUp 9; dynamic.Clear;
       dynamic.Append 6; dynamic.Activate 1; dynamic.Append 5]
      (dynamic.fresh [0; 0; 0])
  with
  | dynamic.Normal s =>
      dynamic.get_n s = 2 /\ 0 <= dynamic.get_n s <= 3
  | dynamic.StoreOutside idx _ _ => idx = 3
  end.
Proof.
  apply (dynamic_device_counter 3 [0; 0; 0]).
  unfold Int.max_int. lia.
Defined.

Lemma host_look_ups_high_water_witness :
  indirect_calls.run Host (map indirect_calls.LookUp [4; 0; 2])
    (indirect.fresh [0; 0; 0; 0; 0; 0])
  = indirect.Make [0; 0; 0; 0; 0; 0] 5 /\
  indirect_calls.run Host (map indirect_calls.LookUp [0; 2; 4])
    (indirect.fresh [0; 0; 0; 0; 0; 0])
  = indirect_calls.run Host (map indirect_calls.LookUp [4; 0; 2])
      (indirect.fresh [0; 0; 0; 0; 0; 0]).
Proof.
  assert (Forall (fun i => Int.min_int <= i < Int.max_int) [4; 0; 2]) as Hidx
    by (repeat constructor; unfold Int.min_int, Int.max_int; lia).
  assert ([4; 0; 2] ≡ₚ [0; 2; 4]) as Hperm.
  { transitivity [0; 4; 2]; [apply perm_swap|].
    apply perm_skip, perm_swap. }
  apply (host_look_ups_high_water (child_type := Z) 6 _ _ Hidx Hperm).
Defined.

Lemma dynamic_look_up_reads_appended_witness :
  exists s,
    dynamic.run 3 Host (map dynamic.Append [7; 8]) (dynamic.fresh [0; 0; 0])
    = dynamic.Normal s /\
    dynamic.look_up Host 1 s = (1, s) /\
    dynamic.data s !! 1%nat = Some 8.
Proof.
  apply (dynamic_look_up_reads_appended 3 Host [0; 0; 0] [7; 8] 1 8).
  - reflexivity.
  - unfold Int.max_int. lia.
  - simpl. lia.
  - reflexivity.
Defined.

Lemma dynamic_clear_keeps_stale_data_witness :
  dynamic.run 3 Device (map dynamic.Append [7; 8] ++ [dynamic.Clear])
    (dynamic.fresh [0; 0; 0])
  = dynamic.Normal (dynamic.Make [7; 8; 0] 0) /\
  dynamic.run 3 Device
    (map dynamic.Append [7; 8] ++ [dynamic.Clear; dynamic.Append 9])
    (dynamic.fresh [0; 0; 0])
  = dynamic.Normal (dynamic.Make [9; 8; 0] 1).
Proof.
  apply (dynamic_clear_keeps_stale_data 3 Device [0; 0; 0] [7; 8] 9).
  - reflexivity.
  - unfold Int.max_int. lia.
  - simpl. lia.
Defined.

(** ** [hashed]: entries, allocations and the two builds *)

Section hashed_more_facts.
Context {H : Type} `{Allocator H}.
Variable size_of_child : Z.
Implicit Types (s : hashed.t) (w : world H) (st : hashed.t * world H).
Implicit Types (ops : list hashed.op).

Lemma hashed_activated_single c o i :
  hashed.activated c [o] = [i] -> o = hashed.LookUp i \/ o = hashed.Activate i.
Proof.
  destruct o as [j|j], c; simpl; intros [=]; subst; auto.
Qed.

Lemma hashed_activated_Activate c ops i :
  In (hashed.Activate i) ops -> In i (hashed.activated c ops).
Proof.
  intros Hin. unfold hashed.activated. apply in_flat_map.
  exists (hashed.Activate i). split; [done|]. destruct c; by left.
Qed.

(** A look-up of an index that is present is a read, in both builds. *)
Lemma hashed_look_up_present c i s w :
  is_Some (hashed.data s !! i) ->
  hashed.look_up size_of_child c i s w =
  (default nullptr (hashed.data s !! i), s, w).
Proof.
  intros Hi. destruct c.
  - rewrite hashed_look_up_Host. by rewrite hashed_activate_present.
  - apply hashed_look_up_Device.
Qed.

Lemma hashed_step_LookUp_present c i st :
  is_Some (hashed.data st.1 !! i) ->
  hashed.step size_of_child c (hashed.LookUp i) st = st.
Proof.
  intros Hi. destruct st as [s w]. simpl in *.
  by rewrite hashed_look_up_present.
Qed.

(** The pointers held by the map are the addresses served since the
    start, each once. *)
Lemma hashed_step_values c o st (l0 : list addr) :
  (map_to_list (hashed.data st.1)).*2 ≡ₚ Some <$> l0 ->
  exists l,
    served (hashed.step size_of_child c o st).2 = served st.2 ++ l /\
    (map_to_list (hashed.data (hashed.step size_of_child c o st).1)).*2
      ≡ₚ Some <$> (l0 ++ l).
Proof.
  intros Hst.
  destruct (hashed_step_cases size_of_child c o st)
    as [[_ ->]|(j & _ & ->)].
  { exists []. by rewrite !app_nil_r. }
  destruct (hashed.data st.1 !! j) as [p|] eqn:Hj.
  - rewrite hashed_activate_present by eauto.
    exists []. by rewrite !app_nil_r.
  - rewrite hashed_activate_absent by done. simpl.
    exists [(allocate size_of_child st.2).1]. split.
    + apply allocate_served.
    + rewrite map_to_list_insert by done. simpl.
      rewrite Hst, fmap_app. simpl. apply Permutation_cons_append.
Qed.

Lemma hashed_run_values c ops st (l0 : list addr) :
  (map_to_list (hashed.data st.1)).*2 ≡ₚ Some <$> l0 ->
  exists l,
    served (hashed.run size_of_child c ops st).2 = served st.2 ++ l /\
    (map_to_list (hashed.data (hashed.run size_of_child c ops st).1)).*2
      ≡ₚ Some <$> (l0 ++ l).
Proof.
  revert st l0. induction ops as [|o ops IH]; intros st l0 Hst.
  - exists []. by rewrite !app_nil_r.
  - destruct (hashed_step_values c o st l0 Hst) as (l1 & Hs1 & Hv1).
    destruct (IH _ _ Hv1) as (l2 & Hs2 & Hv2).
    exists (l1 ++ l2).
    change (hashed.run size_of_child c (o :: ops) st)
      with (hashed.run size_of_child c ops (hashed.step size_of_child c o st)).
    rewrite Hs2, Hs1, !app_assoc. split; [done|].
    by rewrite Hv2.
Qed.

Lemma hashed_step_size c o st :
  (size (hashed.data st.1)
   <= size (hashed.data (hashed.step size_of_child c o st).1)
   <= size (hashed.data st.1) + 1)%nat.
Proof.
  destruct (hashed_step_cases size_of_child c o st)
    as [[_ ->]|(j & _ & ->)]; [lia|].
  destruct (hashed.data st.1 !! j) as [p|] eqn:Hj.
  - rewrite hashed_activate_present by eauto. simpl. lia.
  - rewrite hashed_activate_absent by done. simpl.
    rewrite map_size_insert_None by done. lia.
Qed.

Lemma hashed_run_size c ops st :
  (size (hashed.data st.1)
   <= size (hashed.data (hashed.run size_of_child c ops st).1)
   <= size (hashed.data st.1) + length ops)%nat.
Proof.
  revert st. induction ops as [|o ops IH]; intros st; [simpl; lia|].
  pose proof (hashed_step_size c o st).
  pose proof (IH (hashed.step size_of_child c o st)) as IH'.
  change (hashed.run size_of_child c (o :: ops) st)
    with (hashed.run size_of_child c ops (hashed.step size_of_child c o st)).
  simpl length. lia.
Qed.

(** Under the device calling discipline the two builds take the same
    steps. *)
Lemma hashed_run_agree ops st :
  activate_before_look_up (dom (hashed.data st.1)) ops = true ->
  hashed.run size_of_child Host ops st = hashed.run size_of_child Device ops st.
Proof.
  revert st. induction ops as [|o ops IH]; intros st Hd; [done|].
  change (hashed.run size_of_child Host (o :: ops) st)
    with (hashed.run size_of_child Host ops
            (hashed.step size_of_child Host o st)).
  change (hashed.run size_of_child Device (o :: ops) st)
    with (hashed.run size_of_child Device ops
            (hashed.step size_of_child Device o st)).
  destruct o as [i|i]; simpl in Hd.
  - apply andb_true_iff in Hd as [Hi Hd].
    apply bool_decide_eq_true, elem_of_dom in Hi.
    rewrite !hashed_step_LookUp_present by done. by apply IH.
  - change (hashed.step size_of_child Host (hashed.Activate i) st)
      with (hashed.step size_of_child Device (hashed.Activate i) st).
    apply IH. rewrite hashed_step_dom. simpl.
    by rewrite (right_id_L ∅ (∪)), (comm_L (∪)).
Qed.

Lemma hashed_discipline_app ops1 ops2 st :
  activate_before_look_up (dom (hashed.data st.1)) (ops1 ++ ops2) = true ->
  activate_before_look_up (dom (hashed.data st.1)) ops1 = true /\
  activate_before_look_up
    (dom (hashed.data (hashed.run size_of_child Device ops1 st).1)) ops2
  = true.
Proof.
  revert st. induction ops1 as [|o ops1 IH]; intros st Hd; [done|].
  change (hashed.run size_of_child Device (o :: ops1) st)
    with (hashed.run size_of_child Device ops1
            (hashed.step size_of_child Device o st)).
  destruct o as [i|i]; simpl in Hd.
  - apply andb_true_iff in Hd as [Hi Hd].
    assert (is_Some (hashed.data st.1 !! i)) as Hi'
      by (by apply bool_decide_eq_true, elem_of_dom in Hi).
    rewrite hashed_step_LookUp_present by done.
    destruct (IH st Hd) as [Hd1 Hd2]. split; [|done].
    simpl. by rewrite Hi, Hd1.
  - assert (dom (hashed.data
                   (hashed.step size_of_child Device (hashed.Activate i) st).1)
            = {[i]} ∪ dom (hashed.data st.1)) as Hdom.
    { rewrite hashed_step_dom. simpl.
      by rewrite (right_id_L ∅ (∪)), (comm_L (∪)). }
    rewrite <- Hdom in Hd. apply IH in Hd as [Hd1 Hd2].
    split; [|done]. simpl. by rewrite <- Hdom.
Qed.

End hashed_more_facts.

Section hashed_properties.
Context {H : Type} `{Allocator H}.
Variable size_of_child : Z.
Implicit Types (st : hashed.t * world H) (ops : list hashed.op).

(** X6.  In a device build, on a [hashed] node reached from a fresh one,
    [look_up(i)] returns the null pointer exactly when [activate(i)] has
    not been called; when it has, the result is an address the allocator
    served.  Either way the call changes neither the node nor the
    allocator. *)
Theorem hashed_device_look_up_null_iff ops (w0 : world H) (i : Z) :
  let st := hashed.run size_of_child Device ops (hashed.fresh, w0) in
  let r := hashed.look_up size_of_child Device i st.1 st.2 in
  (r.1.1 = nullptr <-> ~ In (hashed.Activate i) ops) /\
  (In (hashed.Activate i) ops ->
   exists a, r.1.1 = Some a /\ In a (served st.2)) /\
  (r.1.2, r.2) = st.
Proof.
  intros st r.
  assert (r = (default nullptr (hashed.data st.1 !! i), st.1, st.2)) as ->
    by apply hashed_look_up_Device.
  simpl.
  assert (is_Some (hashed.data st.1 !! i) <-> In (hashed.Activate i) ops)
    as Hin.
  { rewrite <- (elem_of_dom (D := gset Z)). unfold st.
    rewrite hashed_run_dom. simpl.
    rewrite dom_empty_L, (left_id_L ∅ (∪)), elem_of_list_to_set,
      list_elem_of_In.
    split; [apply hashed_activated_Device|apply hashed_activated_Activate]. }
  destruct (hashed_run_values size_of_child Device ops (hashed.fresh, w0) [])
    as (l & Hserved & Hvals).
  { simpl. by rewrite map_to_list_empty. }
  fold st in Hserved, Hvals. simpl in Hvals.
  assert (forall p, hashed.data st.1 !! i = Some p ->
                    exists a, p = Some a /\ In a (served st.2)) as Hp.
  { intros p Hi.
    assert (p ∈ (map_to_list (hashed.data st.1)).*2) as Hel.
    { apply list_elem_of_fmap. exists (i, p). split; [done|].
      by apply elem_of_map_to_list. }
    rewrite Hvals in Hel. apply list_elem_of_fmap in Hel as (a & -> & Ha).
    exists a. split; [done|]. rewrite Hserved. apply in_or_app. right.
    by apply list_elem_of_In. }
  split; [|split].
  - destruct (hashed.data st.1 !! i) as [p|] eqn:Hi; simpl.
    + destruct (Hp p eq_refl) as (a & -> & _).
      split; [done|]. intros Hno. destruct Hno. apply Hin. eauto.
    + split; [|done]. intros _ Hact. apply Hin in Hact as [p Hp'].
      congruence.
  - intros Hact. apply Hin in Hact as [p Hi]. rewrite Hi. simpl. by apply Hp.
  - by rewrite <- surjective_pairing.
Qed.

(** X7.  Calls on other indices leave the entry of an index alone: after
    any sequence of [look_up] and [activate] calls none of which is for
    [j], in either build, the entry of [j] in a [hashed] node is what it
    was (a child stays the same child, an absent entry stays absent). *)
Theorem hashed_other_indices_untouched (c : context) ops st (j : Z) :
  Forall (fun o => o <> hashed.LookUp j /\ o <> hashed.Activate j) ops ->
  hashed.data (hashed.run size_of_child c ops st).1 !! j =
  hashed.data st.1 !! j.
Proof.
  intros Hops. revert st.
  induction Hops as [|o ops [Hl Ha] _ IH]; intros st; [done|].
  change (hashed.run size_of_child c (o :: ops) st)
    with (hashed.run size_of_child c ops (hashed.step size_of_child c o st)).
  rewrite IH.
  destruct (hashed_step_cases size_of_child c o st)
    as [[_ ->]|(i & Hact & ->)]; [done|].
  apply hashed_activate_other. intros ->.
  by destruct (hashed_activated_single c o j Hact).
Qed.

(** X8.  The child pointers a [hashed] node holds after a run from a
    fresh node are, counted with multiplicity, the addresses the
    allocator served during that run: no entry is null, no served block
    is missing from the map, and no block is entered twice. *)
Theorem hashed_children_are_served (c : context) ops (w0 : world H) :
  let st := hashed.run size_of_child c ops (hashed.fresh, w0) in
  exists l : list addr,
    served st.2 = served w0 ++ l /\
    (map_to_list (hashed.data st.1)).*2 ≡ₚ Some <$> l.
Proof.
  intros st.
  destruct (hashed_run_values size_of_child c ops (hashed.fresh, w0) [])
    as (l & Hserved & Hvals).
  { simpl. by rewrite map_to_list_empty. }
  by exists l.
Qed.

(** X9.  A [hashed] node only grows: no sequence of calls removes or
    replaces an entry, and each call adds at most one entry. *)
Theorem hashed_entries_only_grow (c : context) ops st :
  (forall (i : Z) (p : ptr),
     hashed.data st.1 !! i = Some p ->
     hashed.data (hashed.run size_of_child c ops st).1 !! i = Some p) /\
  (size (hashed.data st.1)
   <= size (hashed.data (hashed.run size_of_child c ops st).1)
   <= size (hashed.data st.1) + length ops)%nat.
Proof.
  split.
  - intros i p. apply hashed_run_keeps.
  - apply hashed_run_size.
Qed.

(** X10.  Code that follows the device discipline on a [hashed] node
    (every [look_up(i)] comes after an [activate(i)], or finds [i]
    already present) behaves the same in the host build and in the
    device build: the same node and allocator at the end, and the same
    result for every [look_up] of the sequence. *)
Theorem hashed_host_device_agree ops st :
  activate_before_look_up (dom (hashed.data st.1)) ops = true ->
  hashed.run size_of_child Host ops st =
  hashed.run size_of_child Device ops st /\
  (forall ops1 (i : Z) ops2,
     ops = ops1 ++ hashed.LookUp i :: ops2 ->
     let sth := hashed.run size_of_child Host ops1 st in
     let std := hashed.run size_of_child Device ops1 st in
     hashed.look_up size_of_child Host i sth.1 sth.2 =
     hashed.look_up size_of_child Device i std.1 std.2).
Proof.
  intros Hd. split; [by apply hashed_run_agree|].
  intros ops1 i ops2 -> sth std.
  destruct (hashed_discipline_app size_of_child _ _ _ Hd) as [Hd1 Hd2].
  assert (sth = std) as -> by (by apply hashed_run_agree).
  simpl in Hd2. apply andb_true_iff in Hd2 as [Hi _].
  apply bool_decide_eq_true, elem_of_dom in Hi.
  by rewrite !hashed_look_up_present.
Qed.

End hashed_properties.

Lemma hashed_other_indices_untouched_witness :
  hashed.data
    (hashed.run 8 Host
       [hashed.Activate 1; hashed.LookUp 3; hashed.Activate 1]
       (hashed.fresh, bump_world)).1 !! 2
  = hashed.data (hashed.fresh, bump_world).1 !! 2.
Proof.
  apply (hashed_other_indices_untouched 8 Host).
  repeat constructor; intros [=].
Defined.

Lemma hashed_host_device_agree_witness :
  hashed.run 8 Host
    [hashed.Activate 5; hashed.LookUp 5; hashed.Activate 0; hashed.LookUp 5;
     hashed.LookUp 0]
    (hashed.fresh, bump_world)
  = hashed.run 8 Device
      [hashed.Activate 5; hashed.LookUp 5; hashed.Activate 0; hashed.LookUp 5;
       hashed.LookUp 0]
      (hashed.fresh, bump_world).
Proof.
  apply (hashed_host_device_agree 8). vm_compute. reflexivity.
Defined.

(** ** [pointer]: the sole slot over a whole run *)

Section pointer_properties.
Context {H : Type} `{Allocator H}.
Variable size_of_child : Z.
Implicit Types (st : pointer.t * world H) (ops : list pointer.op).

Lemma pointer_run_served c ops st (base : list addr) :
  served st.2 =
    base ++ match pointer.data st.1 with Some a => [a] | None => [] end ->
  let st' := pointer.run size_of_child c ops st in
  served st'.2 =
    base ++ match pointer.data st'.1 with Some a => [a] | None => [] end.
Proof.
  revert st. induction ops as [|o ops IH]; intros st Hst; [done|].
  change (pointer.run size_of_child c (o :: ops) st)
    with (pointer.run size_of_child c ops
            (pointer.step size_of_child c o st)).
  apply IH.
  destruct (pointer_step_cases size_of_child c o st) as [->|[i ->]];
    [done|].
  destruct (pointer.data st.1) as [a|] eqn:Hd.
  - rewrite pointer_activate_set by (by rewrite Hd). simpl. by rewrite Hd.
  - rewrite pointer_activate_null by done. simpl.
    by rewrite allocate_served, Hst, app_nil_r.
Qed.

Lemma pointer_run_Device_null ops st :
  pointer.data (pointer.run size_of_child Device ops st).1 = nullptr <->
  pointer.data st.1 = nullptr /\
  Forall (fun o => exists j, o = pointer.LookUp j) ops.
Proof.
  revert st. induction ops as [|o ops IH]; intros st.
  - simpl. split; [by intros ?; split|by intros [? _]].
  - change (pointer.run size_of_child Device (o :: ops) st)
      with (pointer.run size_of_child Device ops
              (pointer.step size_of_child Device o st)).
    destruct o as [i|i].
    + replace (pointer.step size_of_child Device (pointer.LookUp i) st)
        with st by (by destruct st).
      rewrite IH. split.
      * intros [Hn Hops]. split; [done|]. constructor; eauto.
      * intros [Hn Hops]. split; [done|]. by inversion Hops.
    + split.
      * intros Hn. exfalso. revert Hn.
        rewrite pointer_run_keeps by apply pointer_activate_nonnull.
        apply pointer_activate_nonnull.
      * intros [_ Hops]. inversion Hops as [|? ? [j Hj] _]. discriminate Hj.
Qed.

(** X11.  Over its whole life a [pointer] node asks the allocator for at
    most one block: after any sequence of calls on a fresh node, in
    either build, the allocator has served nothing if the slot is still
    null, and exactly the one address the slot holds otherwise. *)
Theorem pointer_allocates_at_most_once (c : context) ops (w0 : world H) :
  let st := pointer.run size_of_child c ops (pointer.fresh, w0) in
  served st.2 =
    served w0 ++ match pointer.data st.1 with Some a => [a] | None => [] end.
Proof.
  apply (pointer_run_served c ops (pointer.fresh, w0) (served w0)).
  simpl. by rewrite app_nil_r.
Qed.

(** X12.  In a device build, [look_up] on a [pointer] node reached from a
    fresh one returns the null pointer exactly when the calls so far
    contain no [activate]; the call itself changes neither the node nor
    the allocator. *)
Theorem pointer_device_look_up_null_iff ops (w0 : world H) (i : Z) :
  let st := pointer.run size_of_child Device ops (pointer.fresh, w0) in
  let r := pointer.look_up size_of_child Device i st.1 st.2 in
  (r.1.1 = nullptr <->
   Forall (fun o => exists j, o = pointer.LookUp j) ops) /\
  (r.1.2, r.2) = st.
Proof.
  intros st r. split.
  - unfold r, st. simpl. rewrite pointer_run_Device_null. simpl.
    split; [by intros [_ ?]|by intros ?; split].
  - unfold r. simpl. by rewrite <- surjective_pairing.
Qed.

End pointer_properties.

(** ** [dynamic]: which calls write which slots *)

Section slot_properties.
Context {child_type : Type}.
Variable max_n : Z.
Implicit Types (s : dynamic.t child_type) (v : child_type).

(** X13.  Only [append] writes a slot of a [dynamic] node, and it writes
    one slot only: a sequence of [look_up], [clear] and [activate] calls
    runs to its end and leaves every slot as it was, in either build;
    and an [append] that stays inside the array puts its value into the
    slot the counter pointed at and leaves all the other slots, and the
    length of the array, alone. *)
Theorem dynamic_slots_frame c (ops : list (dynamic.op child_type)) s :
  Forall (fun o => forall v, o <> dynamic.Append v) ops ->
  (exists s',
     dynamic.run max_n c ops s = dynamic.Normal s' /\
     dynamic.data s' = dynamic.data s) /\
  (forall v s',
     dynamic.append max_n v s = dynamic.Normal s' ->
     dynamic.data s' = <[Z.to_nat (dynamic.n s) := v]> (dynamic.data s) /\
     length (dynamic.data s') = length (dynamic.data s) /\
     forall k : nat,
       k <> Z.to_nat (dynamic.n s) ->
       dynamic.data s' !! k = dynamic.data s !! k).
Proof.
  intros Hops. split.
  - revert s. induction Hops as [|o ops Ho _ IH]; intros s; simpl; [eauto|].
    destruct o as [v|i| |i]; simpl.
    + by destruct (Ho v).
    + destruct (IH (dynamic.look_up c i s).2) as (s' & Hr & Hd).
      exists s'. split; [done|]. rewrite Hd. by destruct c.
    + destruct (IH (dynamic.clear s)) as (s' & Hr & Hd). by exists s'.
    + destruct (IH s) as (s' & Hr & Hd). by exists s'.
  - intros v s'. unfold dynamic.append, dynamic.atomicAdd, dynamic.store.
    simpl. destruct ((0 <=? dynamic.n s) && (dynamic.n s <? max_n));
      [|discriminate].
    intros [= <-]. simpl. split; [done|]. split; [apply length_insert|].
    intros k Hk. by apply list_lookup_insert_ne.
Qed.

End slot_properties.

Lemma dynamic_slots_frame_witness :
  exists s',
    dynamic.run 3 Host
      [dynamic.LookUp 1; dynamic.Clear; dynamic.Activate 2; dynamic.LookUp 0]
      (dynamic.Make [7; 8; 9] 2)
    = dynamic.Normal s' /\
    dynamic.data s' = dynamic.data (dynamic.Make [7; 8; 9] 2).
Proof.
  apply (dynamic_slots_frame 3 Host
           [dynamic.LookUp 1; dynamic.Clear; dynamic.Activate 2;
            dynamic.LookUp 0]
           (dynamic.Make [7; 8; 9] 2)).
  repeat constructor; intros v [=].
Defined.
